(** * Penpal, parent side: [connectToChild]

    A shallow embedding of [src/parent/connectToChild.ts] and of the
    collaborators it wires together.  The connection attempt lives in a
    browser event loop; here every callback the attempt registers (the
    [message] listener, the timeout callback, the iframe-removal watch, the
    consumer's [destroy]) is an [Event] handled by [step], and the mutable
    variables captured by the closures are the fields of [State]. *)

From Stdlib Require Import ZArith.
From stdpp Require Import base option list gmap strings.

Local Open Scope string_scope.
Local Open Scope nat_scope.

(** ** Errors and completions *)

(** Modelled from the spec: the [ErrorCode] enum of [../enums] is not part
    of the sources at hand; these are the four failure classes of the
    error-handling section. *)
Inductive ErrorCode : Set :=
  | ConnectionDestroyed
  | ConnectionTimedOut
  | PeerLost
  | PrincipalUnresolved.

(** [PenpalError]: an [Error] with a [code]. *)
Record PenpalError : Set := mkPenpalError { code : ErrorCode }.

(** How a JavaScript call ends: it returns a value or throws. *)
Inductive Completion (A : Type) : Type :=
  | Return (a : A)
  | Throw (e : PenpalError).
Arguments Return {A} a.
Arguments Throw {A} e.

#[global] Instance Completion_ret : MRet Completion := @Return.
#[global] Instance Completion_bind : MBind Completion :=
  λ A B (k : A → Completion B) (c : Completion A),
    match c with
    | Return a => k a
    | Throw e => Throw e
    end.

(** ** Values crossing the boundary *)

(** What a consumer may pass to the handle's [destroy]: the signature takes
    nothing, a JavaScript caller can still pass anything. *)
Inductive JSValue : Type :=
  | JSUndefined
  | JSNull
  | JSBoolean (b : bool)
  | JSNumber (n : Z)
  | JSString (s : string)
  | JSError (e : PenpalError).

(** Modelled from the spec: the [MessageType] enum of [../enums] is not part
    of the sources at hand; the two handshake tags are those of the wire
    format in the external-interfaces section. *)
Definition MessageType_Syn : string := "Syn".
Definition MessageType_Ack : string := "Ack".

(** [event.data] when it is truthy.  [penpal] is [None] when the property is
    missing or is not a string (a truthy primitive has no such property
    either); [methodNames] is the array carried by an Ack. *)
Record MessageData : Type := mkData {
  penpal : option string;
  methodNames : list string
}.

(** The part of a [MessageEvent] the handlers read.  [data = None] stands for
    a falsy [event.data]. *)
Record MessageEvent : Type := mkEvent {
  data : option MessageData;
  origin : string
}.

(** Modelled from the spec: the wire messages are built by the handshake
    handlers, which are not part of the sources at hand.  An outbound
    handshake message is the tagged union of the data model. *)
Inductive HandshakeMessage : Type :=
  | Syn
  | Ack (names : gset string).

(** Modelled from the spec: the stubs come from the call proxy layer, which
    is not part of the sources at hand.  A stub of the remote-call interface
    is invocable and forwards the call named [proxyName] to the principal
    [proxyTarget]; it returns an eventual value and never calls back into
    the arguments it was given (external interfaces, RemoteCallInterface). *)
Record MethodProxy : Type := mkProxy {
  proxyName : string;
  proxyTarget : string
}.

(** The remote-call interface is a JavaScript object used as a map from
    method name to stub. *)
Abbreviation CallSender := (gmap string MethodProxy).

(** A local implementation; only its identity matters here. *)
Inductive Callable : Set := LocalFunction (id : nat).
Abbreviation Methods := (gmap string Callable).

Record HTMLIFrameElement : Type := mkIframe {
  src : string;
  srcdoc : string
}.

(** [Options] of [connectToChild].  [parentWindow] is the window whose
    [message] events reach the attempt; [debug] only switches logging. *)
Record Options : Type := mkOptions {
  iframe : HTMLIFrameElement;
  methods : Methods;
  childOrigin : option string;
  timeout : option Z;
  debug : bool
}.

(** ** State of one connection attempt *)

(** The cleanups registered on the destructor, in the order of the source:
    [monitorIframeRemoval] (line 125) registers the first, its body being
    modelled from the spec; line 127 registers the second. *)
Inductive Callback : Set :=
  | StopIframeMonitor
  | RemoveListenerAndReject.

(** Modelled from the spec: the timer lives inside
    [startConnectionTimeout], which is not part of the sources at hand
    (component 4.3). *)
Inductive TimerState : Type :=
  | TimerNotScheduled
  | TimerScheduled (ms : Z)
  | TimerCleared
  | TimerFired.

(** The promise of line 96.  [Adopting] is a promise that was resolved with
    a thenable: it is locked in to it, its resolving functions are dead, and
    it stays unsettled until the thenable settles it. *)
Inductive PromiseState : Type :=
  | Pending
  | Adopting (thenable : CallSender)
  | Fulfilled (callSender : CallSender)
  | Rejected (error : PenpalError).

(** Observable effects, most recent first. *)
Inductive Effect : Type :=
  | Posted (message : HandshakeMessage) (targetOrigin : string)
  | Built (names : list string)         (* an interface was built *)
  | Resolved (callSender : CallSender)  (* [resolve] took effect *)
  | StubInvoked (name : string)         (* a stub of the interface was called *)
  | Settled                             (* the promise was settled *)
  | CleanupRan (callback : Callback) (cause : option PenpalError).

(** The constants captured by the closures of one attempt. *)
Record Closure : Type := mkClosure {
  expectedOrigin : string;      (* [childOrigin] after line 74 *)
  originForSending : string;
  serializedMethods : gset string;
  timeoutOption : option Z
}.

Record State : Type := mkState {
  closure : Closure;
  destroyed : bool;               (* destructor: the one-shot flag *)
  callbacks : list Callback;      (* destructor: the cleanup list *)
  promise : PromiseState;
  listening : bool;               (* [handleMessage] is on [parentWindow] *)
  watching : bool;                (* the iframe-removal watch is active *)
  timer : TimerState;
  established : bool;             (* the Ack handler's own state *)
  trace : list Effect
}.

Definition set_destroyed (b : bool) (s : State) : State :=
  mkState (closure s) b (callbacks s) (promise s) (listening s)
          (watching s) (timer s) (established s) (trace s).
Definition set_callbacks (l : list Callback) (s : State) : State :=
  mkState (closure s) (destroyed s) l (promise s) (listening s)
          (watching s) (timer s) (established s) (trace s).
Definition set_promise (p : PromiseState) (s : State) : State :=
  mkState (closure s) (destroyed s) (callbacks s) p (listening s)
          (watching s) (timer s) (established s) (trace s).
Definition set_listening (b : bool) (s : State) : State :=
  mkState (closure s) (destroyed s) (callbacks s) (promise s) b
          (watching s) (timer s) (established s) (trace s).
Definition set_watching (b : bool) (s : State) : State :=
  mkState (closure s) (destroyed s) (callbacks s) (promise s) (listening s)
          b (timer s) (established s) (trace s).
Definition set_timer (t : TimerState) (s : State) : State :=
  mkState (closure s) (destroyed s) (callbacks s) (promise s) (listening s)
          (watching s) t (established s) (trace s).
Definition set_established (b : bool) (s : State) : State :=
  mkState (closure s) (destroyed s) (callbacks s) (promise s) (listening s)
          (watching s) (timer s) b (trace s).
Definition emit (e : Effect) (s : State) : State :=
  mkState (closure s) (destroyed s) (callbacks s) (promise s) (listening s)
          (watching s) (timer s) (established s) (e :: trace s).

(** ** The promise *)

(** A value is a thenable when its [then] property is callable.  Every
    property of the remote-call interface is an invocable stub, so the
    interface is a thenable when it has a stub named [then]. *)
Definition is_thenable (callSender : CallSender) : bool :=
  match callSender !! "then" with
  | Some _ => true
  | None => false
  end.

(** What a pending promise becomes when it is resolved with an interface. *)
Definition resolution (callSender : CallSender) : PromiseState :=
  if is_thenable callSender then Adopting callSender
  else Fulfilled callSender.

(** Modelled from the spec: the stubs come from the call proxy layer, which
    is not part of the sources at hand.  Calling the [then] stub with the
    promise's resolving functions forwards a call to the peer and returns an
    eventual value; the stub never calls the functions it was handed. *)
Definition invokeThenStub (s : State) : State := emit (StubInvoked "then") s.

(** [resolve] of the executor (line 116).  It is dead once the promise was
    resolved or rejected.  A plain interface fulfils the promise; a thenable
    is adopted: the promise is locked in and a job calls its [then] with the
    promise's resolving functions, which alone could still settle it. *)
Definition resolve (callSender : CallSender) (s : State) : State :=
  match promise s with
  | Pending =>
      let s := emit (Resolved callSender) s in
      if is_thenable callSender
      then invokeThenStub (set_promise (Adopting callSender) s)
      else emit Settled (set_promise (Fulfilled callSender) s)
  | _ => s
  end.

(** [reject] of the executor (line 134): dead as well once the promise was
    resolved or rejected. *)

Definition reject (error : PenpalError) (s : State) : State :=
  match promise s with
  | Pending => emit Settled (set_promise (Rejected error) s)
  | _ => s
  end.

(** ** The cleanups *)

(** The cleanup of lines 127-136: the listener is removed, and the promise
    is rejected only when the destructor hands over an error. *)
Definition removeListenerAndReject (error : option PenpalError) (s : State)
    : Completion State :=
  let s := set_listening false s in
  match error with
  | Some e => Return (reject e s)
  | None => Return s
  end.

(** Modelled from the spec: [monitorIframeRemoval] is not part of the
    sources at hand; the cleanup it registers stops the watch (component
    4.4). *)
Definition stopIframeMonitor (s : State) : Completion State :=
  Return (set_watching false s).

(** One invocation [callback(error)], recorded in the trace. *)
Definition run_callback (cb : Callback) (error : option PenpalError)
    (s : State) : Completion State :=
  let s := emit (CleanupRan cb error) s in
  match cb with
  | StopIframeMonitor => stopIframeMonitor s
  | RemoveListenerAndReject => removeListenerAndReject error s
  end.

(** Modelled from the spec: [createDestructor] is not part of the sources at
    hand.  Component 4.1: every registered cleanup runs in registration
    order and receives the cause; a throwing cleanup would end the loop. *)
Fixpoint run_callbacks (cbs : list Callback) (error : option PenpalError)
    (s : State) : Completion State :=
  match cbs with
  | [] => Return s
  | cb :: rest => s' ← run_callback cb error s; run_callbacks rest error s'
  end.

(** ** The destructor *)

(** Modelled from the spec: [createDestructor] is not part of the sources at
    hand.  Component 4.1: [registerCleanup] appends to an ordered list. *)
Definition onDestroy (cb : Callback) (s : State) : Completion State :=
  Return (set_callbacks (callbacks s ++ [cb]) s).

(** Modelled from the spec: [createDestructor] is not part of the sources at
    hand.  Component 4.1: the first [destroy] sets the one-shot flag and
    runs the cleanups with the cause it was given (none on an explicit
    close); later calls do nothing. *)
Definition destroy (error : option PenpalError) (s : State)
    : Completion State :=
  if destroyed s then Return s
  else run_callbacks (callbacks s) error (set_destroyed true s).

(** ** The timeout guard *)

(** Modelled from the spec: [startConnectionTimeout] is not part of the
    sources at hand.  Component 4.3: without a timeout, or with one that is
    not positive, nothing is scheduled. *)
Definition startConnectionTimeout (timeout : option Z) (s : State) : State :=
  match timeout with
  | Some ms => if (0 <? ms)%Z then set_timer (TimerScheduled ms) s else s
  | None => s
  end.

(** Modelled from the spec: the [stop] returned by [startConnectionTimeout]
    (component 4.3) cancels a pending fire and does nothing after the timer
    fired or was stopped. *)
Definition stopConnectionTimeout (s : State) : State :=
  match timer s with
  | TimerScheduled _ => set_timer TimerCleared s
  | _ => s
  end.

(** Modelled from the spec: the timeout-classified failure of component
    4.3. *)
Definition timeoutError : PenpalError := mkPenpalError ConnectionTimedOut.

(** Modelled from the spec: the timer callback of [startConnectionTimeout]
    (component 4.3).  A scheduled timer fires once and hands the timeout
    error to its callback, which line 98 makes the destructor's [destroy]. *)
Definition fireConnectionTimeout (s : State) : Completion State :=
  match timer s with
  | TimerScheduled _ => destroy (Some timeoutError) (set_timer TimerFired s)
  | _ => Return s
  end.

(** ** The iframe-removal watch *)

(** Modelled from the spec: [monitorIframeRemoval] is not part of the
    sources at hand.  Component 4.4: the watch starts and registers its own
    stop as a cleanup. *)
Definition monitorIframeRemoval (s : State) : Completion State :=
  onDestroy StopIframeMonitor (set_watching true s).

(** Modelled from the spec: the liveness failure of step 4 of 4.6. *)
Definition peerLostError : PenpalError := mkPenpalError PeerLost.

(** Modelled from the spec: the watch of [monitorIframeRemoval] noticing
    that the iframe is gone.  Components 4.4 and 4.6: it fires at most once
    and destroys the attempt with the liveness failure. *)
Definition iframeRemoved (s : State) : Completion State :=
  if watching s then destroy (Some peerLostError) (set_watching false s)
  else Return s.

(** ** The handshake handlers *)

(** Modelled from the spec: [serializeMethods] is not part of the sources at
    hand.  Component 4.2: the set of keys of the mapping. *)
Definition serializeMethods (m : Methods) : gset string := dom m.

(** Modelled from the spec: [handleSynMessageFactory] is not part of the
    sources at hand.  Component 4.5: a Syn from another principal is
    discarded; otherwise an Ack carrying the host's descriptor set is sent
    to the expected principal.  The factory call of lines 81-86 gives the
    handler the log, the descriptor set and the two origins, nothing else. *)
Definition handleSynMessage (event : MessageEvent) (s : State)
    : Completion State :=
  if bool_decide (origin event = expectedOrigin (closure s))
  then Return (emit (Posted (Ack (serializedMethods (closure s)))
                            (originForSending (closure s))) s)
  else Return s.

(** Modelled from the spec: building the remote-call interface belongs to
    [handleAckMessageFactory] and the call proxy layer, which are not part of
    the sources at hand.  Component 4.5: one invocable stub per advertised
    name, each forwarding to the established principal; the interface is an
    object filled key by key. *)
Definition buildCallSender (target : string) (names : list string)
    : CallSender :=
  foldl (λ api name, <[name := mkProxy name target]> api) ∅ names.

(** Modelled from the spec: [handleAckMessageFactory] is not part of the
    sources at hand.  Component 4.5: an Ack from another principal is
    discarded; a second Ack after [Established] is ignored; otherwise the
    remote-call interface is built from the message's [methodNames] (the
    trace records the build) and the attempt becomes [Established].  The
    result is the interface, or [undefined] when the message was discarded
    or ignored. *)
Definition handleAckMessage (event : MessageEvent) (names : list string)
    (s : State) : Completion (option CallSender * State) :=
  if bool_decide (origin event = expectedOrigin (closure s)) then
    if established s then Return (None, s)
    else Return (Some (buildCallSender (originForSending (closure s)) names),
                 set_established true (emit (Built names) s))
  else Return (None, s).

(** [handleMessage], lines 99-120. *)
Definition handleMessage (event : MessageEvent) (s : State)
    : Completion State :=
  match data event with
  | None => Return s
  | Some d =>
      if bool_decide (penpal d = Some MessageType_Syn) then
        handleSynMessage event s
      else if bool_decide (penpal d = Some MessageType_Ack) then
        '(callSender, s) ← handleAckMessage event (methodNames d) s;
        match callSender with
        | Some cs => Return (resolve cs (stopConnectionTimeout s))
        | None => Return s
        end
      else Return s
  end.

(** ** The handle *)

(** [destroy() { destroy(); }], lines 142-145: the consumer's argument is
    dropped. *)
Definition handle_destroy (arg : JSValue) (s : State) : Completion State :=
  destroy None s.

(** ** Events of the attempt *)

Inductive Event : Type :=
  | MessageArrived (event : MessageEvent)  (* [message] on [parentWindow] *)
  | TimeoutElapsed                         (* the timer callback is due *)
  | IframeRemoved                          (* the iframe left the document *)
  | DestroyCalled (arg : JSValue).         (* [handle.destroy(arg)] *)

(** The window delivers a [message] event to [handleMessage] only while it
    is registered. *)
Definition step (ev : Event) (s : State) : Completion State :=
  match ev with
  | MessageArrived event =>
      if listening s then handleMessage event s else Return s
  | TimeoutElapsed => fireConnectionTimeout s
  | IframeRemoved => iframeRemoved s
  | DestroyCalled arg => handle_destroy arg s
  end.

Fixpoint run (evs : list Event) (s : State) : Completion State :=
  match evs with
  | [] => Return s
  | ev :: rest => s' ← step ev s; run rest s'
  end.

(** ** Establishment *)

(** JavaScript truthiness of an optional string. *)
Definition truthy (o : option string) : bool :=
  match o with
  | Some s => negb (bool_decide (s = EmptyString))
  | None => false
  end.

(** Modelled from the spec: [validateIframeHasSrcOrSrcDoc] is not part of
    the sources at hand.  An iframe with neither [src] nor [srcdoc] carries
    no determinable location: the validation fails, which for a call made
    for its effect alone (line 72) is a throw. *)
Definition validateIframeHasSrcOrSrcDoc (f : HTMLIFrameElement)
    : Completion unit :=
  if bool_decide (src f = EmptyString) && bool_decide (srcdoc f = EmptyString)
  then Throw (mkPenpalError PrincipalUnresolved)
  else Return tt.

(** The attempt before the executor runs: a fresh destructor, a pending
    promise, nothing registered. *)
Definition initialState (c : Closure) : State :=
  mkState c false [] Pending false false TimerNotScheduled false [].

(** [parentWindow.addEventListener(NativeEventType.Message, handleMessage)],
    line 122. *)
Definition addEventListener (s : State) : State := set_listening true s.

Section Establisher.

(** [getOriginFromSrc] is not part of the sources at hand and the origin
    resolver is an external collaborator of the specification,
    [resolve(peerReference) -> Principal | fails]: it is a parameter. *)
Variable getOriginFromSrc : string → Completion string.

(** Lines 71-74. *)
Definition resolveChildOrigin (options : Options) : Completion string :=
  if truthy (childOrigin options)
  then Return (default EmptyString (childOrigin options))
  else
    validateIframeHasSrcOrSrcDoc (iframe options);;
    getOriginFromSrc (src (iframe options)).

(** The executor of lines 97-137; it runs inside [new Promise]. *)
Definition executor (s : State) : Completion State :=
  let s := startConnectionTimeout (timeoutOption (closure s)) s in
  let s := addEventListener s in
  s ← monitorIframeRemoval s;
  onDestroy RemoveListenerAndReject s.

(** [connectToChild]: the returned state is the attempt behind the handle
    [{ promise, destroy }]; a throw leaves the caller without a handle. *)
Definition connectToChild (options : Options) : Completion State :=
  origin ← resolveChildOrigin options;
  let originForSending :=
    if bool_decide (origin = "null") then "*" else origin in
  let serializedMethods := serializeMethods (methods options) in
  executor (initialState (mkClosure origin originForSending serializedMethods
                                    (timeout options))).

End Establisher.

(** ** Reading the trace *)

#[global] Instance Callback_eq_dec : EqDecision Callback.
Proof. solve_decision. Defined.

(** The interfaces built, most recent first, by the names they were built
    from. *)
Fixpoint builds_in (t : list Effect) : list (list string) :=
  match t with
  | [] => []
  | Built names :: rest => names :: builds_in rest
  | _ :: rest => builds_in rest
  end.

(** The interfaces the promise was resolved with, most recent first. *)
Fixpoint resolutions_in (t : list Effect) : list CallSender :=
  match t with
  | [] => []
  | Resolved callSender :: rest => callSender :: resolutions_in rest
  | _ :: rest => resolutions_in rest
  end.

(** How many times the promise went from pending to settled. *)
Fixpoint settlements_in (t : list Effect) : nat :=
  match t with
  | [] => 0
  | Settled :: rest => S (settlements_in rest)
  | _ :: rest => settlements_in rest
  end.

(** How many times the cleanup [cb] was invoked. *)
Fixpoint cleanups_in (cb : Callback) (t : list Effect) : nat :=
  match t with
  | [] => 0
  | CleanupRan cb' _ :: rest =>
      (if bool_decide (cb' = cb) then 1 else 0) + cleanups_in cb rest
  | _ :: rest => cleanups_in cb rest
  end.

(** The causes the cleanups were invoked with. *)
Fixpoint causes_in (t : list Effect) : list (option PenpalError) :=
  match t with
  | [] => []
  | CleanupRan _ cause :: rest => cause :: causes_in rest
  | _ :: rest => causes_in rest
  end.

(** The handshake messages sent, with their target origin. *)
Fixpoint posts_in (t : list Effect) : list (HandshakeMessage * string) :=
  match t with
  | [] => []
  | Posted m target :: rest => (m, target) :: posts_in rest
  | _ :: rest => posts_in rest
  end.

(** Modelled from the spec: the timer [startConnectionTimeout] (component
    4.3, not part of the sources at hand) leaves behind for a given option. *)
Definition scheduledTimer (timeout : option Z) : TimerState :=
  match timeout with
  | Some ms => if (0 <? ms)%Z then TimerScheduled ms else TimerNotScheduled
  | None => TimerNotScheduled
  end.

Definition is_pending (p : PromiseState) : bool :=
  match p with Pending => true | _ => false end.

Definition is_fulfilled (p : PromiseState) : bool :=
  match p with Fulfilled _ => true | _ => false end.

(** Resolved with an interface: fulfilled, or locked in to a thenable. *)
Definition is_resolved (p : PromiseState) : bool :=
  match p with Fulfilled _ | Adopting _ => true | _ => false end.

Definition is_settled (p : PromiseState) : bool :=
  match p with Fulfilled _ | Rejected _ => true | _ => false end.

Definition is_rejected (p : PromiseState) : bool :=
  match p with Rejected _ => true | _ => false end.

(** ** The invariant of a connection attempt *)

Record Inv (s : State) : Prop := mkInv {
  inv_callbacks : callbacks s = [StopIframeMonitor; RemoveListenerAndReject];
  inv_listening : listening s = negb (destroyed s);
  inv_watching : watching s = negb (destroyed s);
  inv_rejected : is_rejected (promise s) = true → destroyed s = true;
  inv_established : established s = is_resolved (promise s);
  inv_timer :
    destroyed s = false → promise s = Pending →
    timer s = scheduledTimer (timeoutOption (closure s));
  inv_settlements :
    settlements_in (trace s) = if is_settled (promise s) then 1 else 0;
  inv_cleanups :
    ∀ cb, cleanups_in cb (trace s) = if destroyed s then 1 else 0;
  inv_causes :
    promise s = Pending →
    Forall (λ cause, cause = None) (causes_in (trace s))
}.

(** ** Waiting for the handshake *)

(** [event] is an Ack of the origin the closure [c] expects, by the exact
    match the handlers of component 4.5 use. *)
Definition expected_ack (c : Closure) (event : MessageEvent) : bool :=
  match data event with
  | Some d =>
      bool_decide (penpal d = Some MessageType_Ack)
      && bool_decide (origin event = expectedOrigin c)
  | None => false
  end.

(** [ev] is an inbound message other than the Ack the attempt waits for. *)
Definition still_waiting (c : Closure) (ev : Event) : bool :=
  match ev with
  | MessageArrived event => negb (expected_ack c event)
  | _ => false
  end.

(** ** A concrete attempt

    The scenario of the testable properties: the parent exposes [add],
    expects the child at [https://child.example] and waits 2000 ms; the
    child sends a Syn, then an Ack advertising [multiply]. *)

Definition demoResolver (src : string) : Completion string :=
  if bool_decide (src = EmptyString)
  then Throw (mkPenpalError PrincipalUnresolved)
  else Return src.

Definition demoOptions : Options :=
  mkOptions (mkIframe "https://child.example" EmptyString)
            {[ "add" := LocalFunction 0 ]}
            (Some "https://child.example") (Some 2000%Z) false.

(** An iframe without [src] and [srcdoc], and no origin from the caller. *)
Definition blankOptions : Options :=
  mkOptions (mkIframe EmptyString EmptyString) ∅ None (Some 2000%Z) false.

Definition demoClosure : Closure :=
  mkClosure "https://child.example" "https://child.example"
            {[ "add" ]} (Some 2000%Z).

Definition demoStart : State :=
  mkState demoClosure false [StopIframeMonitor; RemoveListenerAndReject]
          Pending true true (TimerScheduled 2000) false [].

Definition demoAfterSyn : State :=
  mkState demoClosure false [StopIframeMonitor; RemoveListenerAndReject]
          Pending true true (TimerScheduled 2000) false
          [Posted (Ack {[ "add" ]}) "https://child.example"].

Definition demoSyn : MessageEvent :=
  mkEvent (Some (mkData (Some MessageType_Syn) [])) "https://child.example".

Definition demoAck : MessageEvent :=
  mkEvent (Some (mkData (Some MessageType_Ack) ["multiply"]))
          "https://child.example".

(** The child exposes a method named [then] beside [multiply]. *)
Definition demoThenAck : MessageEvent :=
  mkEvent (Some (mkData (Some MessageType_Ack) ["multiply"; "then"]))
          "https://child.example".


Definition foreignAck : MessageEvent :=
  mkEvent (Some (mkData (Some MessageType_Ack) ["steal"]))
          "https://evil.example".

Definition callMessage : MessageEvent :=
  mkEvent (Some (mkData (Some "call") [])) "https://child.example".

(** ** What the wiring of the attempt keeps

    More facts that hold of every attempt: [stopConnectionTimeout] comes
    before [resolve] (lines 115-116), [reject] receives the error the
    cleanup was invoked with (lines 133-134), the Syn handler was built from
    [serializedMethods] and [originForSending] (lines 81-86), and nothing is
    built or resolved before the Ack handler accepted an Ack. *)
Record Wiring (s : State) : Prop := mkWiring {
  wiring_timer :
    is_resolved (promise s) = true → ∀ ms, timer s ≠ TimerScheduled ms;
  wiring_cause :
    ∀ e, promise s = Rejected e → Some e ∈ causes_in (trace s);
  wiring_posts :
    Forall (λ post, post = (Ack (serializedMethods (closure s)),
                            originForSending (closure s)))
           (posts_in (trace s));
  wiring_unbuilt :
    established s = false →
    builds_in (trace s) = [] ∧ resolutions_in (trace s) = []
}.

(** A resolver that always fails, an attempt whose caller names the opaque
    origin, an iframe that only has [srcdoc], and the concrete attempt once
    the child's Ack arrived and once the consumer destroyed it. *)
Definition failingResolver (src : string) : Completion string :=
  Throw (mkPenpalError PrincipalUnresolved).

Definition parentOriginResolver (src : string) : Completion string :=
  if bool_decide (src = EmptyString) then Return "https://parent.example"
  else Return src.

Definition suppliedOriginOptions : Options :=
  mkOptions (mkIframe EmptyString EmptyString) ∅
            (Some "https://child.example") None false.

Definition nullOriginOptions : Options :=
  mkOptions (mkIframe "file:///child.html" EmptyString) ∅
            (Some "null") None false.

Definition nullOriginStart : State :=
  mkState (mkClosure "null" "*" ∅ None) false
          [StopIframeMonitor; RemoveListenerAndReject]
          Pending true true TimerNotScheduled false [].

Definition nullOriginSyn : MessageEvent :=
  mkEvent (Some (mkData (Some MessageType_Syn) [])) "null".

Definition nullOriginDestroyed : State :=
  mkState (mkClosure "null" "*" ∅ None) true
          [StopIframeMonitor; RemoveListenerAndReject]
          Pending false false TimerNotScheduled false
          [CleanupRan RemoveListenerAndReject None;
           CleanupRan StopIframeMonitor None;
           Posted (Ack ∅) "*"].

Definition srcdocOptions : Options :=
  mkOptions (mkIframe EmptyString "<p>child</p>") ∅
            (Some EmptyString) None false.

Definition demoEstablished : State :=
  mkState demoClosure false [StopIframeMonitor; RemoveListenerAndReject]
          (Fulfilled (buildCallSender "https://child.example" ["multiply"]))
          true true TimerCleared true
          [Settled;
           Resolved (buildCallSender "https://child.example" ["multiply"]);
           Built ["multiply"];
           Posted (Ack {[ "add" ]}) "https://child.example"].

Definition demoTimedOut : State :=
  mkState demoClosure true [StopIframeMonitor; RemoveListenerAndReject]
          (Rejected timeoutError) false false TimerFired false
          [Settled;
           CleanupRan RemoveListenerAndReject (Some timeoutError);
           CleanupRan StopIframeMonitor (Some timeoutError)].

(** ** Basic facts *)

Ltac unfold_model H :=
  unfold step, handle_destroy, fireConnectionTimeout, iframeRemoved,
    resolution, invokeThenStub,
    run_callback, removeListenerAndReject, stopIframeMonitor,
    handleMessage, handleAckMessage, handleSynMessage, destroy,
    resolve, reject, stopConnectionTimeout,
    set_destroyed, set_callbacks, set_promise, set_listening, set_watching,
    set_timer, set_established, emit in H; simpl in H.

(** Case analysis along the branches taken by one handler run [H]. *)
Ltac branches H :=
  repeat (simpl in H;
          match type of H with
          | context [bool_decide ?P] => destruct (bool_decide_reflect P)
          | context [match ?x with _ => _ end] => destruct x eqn:?
          end);
  simpl in H.

Lemma run_callback_returns cb error s :
  ∃ s', run_callback cb error s = Return s'.
Proof. destruct cb, error; simpl; eauto. Qed.

Lemma run_callbacks_returns cbs error s :
  ∃ s', run_callbacks cbs error s = Return s'.
Proof.
  revert s. induction cbs as [|cb rest IH]; intros s; simpl; [eauto|].
  destruct (run_callback_returns cb error s) as [s1 ->]. simpl. apply IH.
Qed.

Lemma destroy_returns error s : ∃ s', destroy error s = Return s'.
Proof.
  unfold destroy. destruct (destroyed s); [eauto|].
  apply run_callbacks_returns.
Qed.

Lemma step_returns ev s : ∃ s', step ev s = Return s'.
Proof.
  destruct ev as [event| | |arg]; simpl.
  - destruct (listening s); [|eauto].
    unfold handleMessage, handleSynMessage, handleAckMessage.
    repeat (case_match || case_bool_decide); simplify_eq/=; eauto.
  - unfold fireConnectionTimeout. case_match; eauto using destroy_returns.
  - unfold iframeRemoved. case_match; eauto using destroy_returns.
  - apply destroy_returns.
Qed.

Lemma run_returns evs s : ∃ s', run evs s = Return s'.
Proof.
  revert s. induction evs as [|ev rest IH]; intros s; simpl; [eauto|].
  destruct (step_returns ev s) as [s1 ->]. simpl. apply IH.
Qed.



Lemma step_inv ev s s' : Inv s → step ev s = Return s' → Inv s'.
Proof.
  destruct s as [c d cbs p l w t e tr].
  intros [Hcb Hl Hw Hrej Hest Htim Hset Hcl Hcau]; simpl in *; subst.
  intros Hstep. unfold_model Hstep.
  destruct ev as [event| | |arg], d, p, t; simpl in Hstep.
  all: branches Hstep; simplify_eq/=.
  all: constructor; simpl; try done.
  all: intros; rewrite ?Hset, ?Hcl; try done.
  all: try (by repeat case_bool_decide).
  all: try (by apply Htim).
  all: try (by apply Hrej).
  all: try (by repeat constructor; auto).
  all: try (by specialize (Hrej eq_refl)).
  all: by destruct cb.
Qed.

Lemma run_inv evs s s' : Inv s → run evs s = Return s' → Inv s'.
Proof.
  revert s. induction evs as [|ev rest IH]; intros s HI; simpl.
  - by intros [= <-].
  - destruct (step ev s) as [s1|e] eqn:Hstep; simpl; [|done].
    apply IH. by eapply step_inv.
Qed.

Lemma step_wiring ev s s' :
  Inv s → Wiring s → step ev s = Return s' → Wiring s'.
Proof.
  destruct s as [c d cbs p l w t e tr].
  intros [Hcb Hl Hw Hrej Hest Htim Hset Hcl Hcau] [Wt Wc Wp Wu];
    simpl in *; subst.
  intros Hstep. unfold_model Hstep.
  destruct ev as [event| | |arg], d, p, t; simpl in Hstep.
  all: branches Hstep; simplify_eq/=.
  all: constructor; simpl; try done.
  all: try (by constructor).
  all: try (by specialize (Hrej eq_refl)).
  all: try (intros ? [= <-]; by constructor).
  all: intros; by eapply Wt.
Qed.

Lemma run_wiring evs s s' :
  Inv s → Wiring s → run evs s = Return s' → Wiring s'.
Proof.
  revert s. induction evs as [|ev rest IH]; intros s HI HW; simpl.
  - by intros [= <-].
  - destruct (step ev s) as [s1|e] eqn:Hstep; simpl; [|done].
    apply IH; [by eapply step_inv|by eapply step_wiring].
Qed.

(** The cleanups never touch the closure constants, whatever the list. *)
Lemma run_callbacks_closure cbs error s s' :
  run_callbacks cbs error s = Return s' → closure s' = closure s.
Proof.
  revert s. induction cbs as [|cb rest IH]; intros s; simpl.
  - by intros [= <-].
  - destruct cb, error as [e|]; simpl; intros H; apply IH in H; rewrite H;
      unfold reject; simpl; by repeat case_match.
Qed.

Lemma step_closure ev s s' : step ev s = Return s' → closure s' = closure s.
Proof.
  destruct s as [c d cbs p l w t e tr].
  intros Hstep. unfold_model Hstep.
  destruct ev as [event| | |arg], p, t; simpl in Hstep.
  all: branches Hstep; simplify_eq/=; try done.
  all: by apply run_callbacks_closure in Hstep.
Qed.

Lemma run_closure evs s s' : run evs s = Return s' → closure s' = closure s.
Proof.
  revert s. induction evs as [|ev rest IH]; intros s; simpl.
  - by intros [= <-].
  - destruct (step ev s) as [s1|e] eqn:Hstep; simpl; [|done].
    intros H. apply IH in H. apply step_closure in Hstep. congruence.
Qed.

(** A settled promise is never changed again: [resolve] and [reject] are
    the only writers and both leave a settled promise alone. *)
Lemma run_callbacks_settled cbs error s s' :
  promise s ≠ Pending →
  run_callbacks cbs error s = Return s' →
  promise s' = promise s
  ∧ settlements_in (trace s') = settlements_in (trace s).
Proof.
  revert s. induction cbs as [|cb rest IH]; simpl.
  - by intros s _ [= <-].
  - intros [c d cbs0 p l w t e0 tr] Hp; simpl in *.
    destruct cb, error as [e|], p; simpl; intros H; apply IH in H; done.
Qed.

Lemma step_settled ev s s' :
  promise s ≠ Pending → step ev s = Return s' →
  promise s' = promise s
  ∧ settlements_in (trace s') = settlements_in (trace s).
Proof.
  destruct s as [c d cbs p l w t e tr].
  intros Hp Hstep. unfold_model Hstep.
  destruct ev as [event| | |arg], p, t; simpl in Hstep.
  all: branches Hstep; simplify_eq/=; try done.
  all: by apply run_callbacks_settled in Hstep.
Qed.

Lemma run_settled evs s s' :
  promise s ≠ Pending → run evs s = Return s' →
  promise s' = promise s
  ∧ settlements_in (trace s') = settlements_in (trace s).
Proof.
  revert s. induction evs as [|ev rest IH]; intros s Hp; simpl.
  - by intros [= <-].
  - destruct (step ev s) as [s1|e] eqn:Hstep; simpl; [|done].
    apply step_settled in Hstep as [Hp1 Ht1]; [|done].
    intros H. apply IH in H as [? ?]; [|congruence]. split; congruence.
Qed.

(** After destruction nothing the attempt can observe changes any more:
    the listener and the watch are gone, the flag stops [destroy]. *)
Lemma step_destroyed ev s s' :
  Inv s → destroyed s = true → step ev s = Return s' →
  destroyed s' = true ∧ promise s' = promise s ∧ trace s' = trace s.
Proof.
  destruct s as [c d cbs p l w t e tr].
  intros [Hcb Hl Hw Hrej Hest Htim Hset Hcl Hcau] Hd Hstep; simpl in *; subst.
  unfold_model Hstep.
  destruct ev as [event| | |arg]; branches Hstep; by simplify_eq/=.
Qed.

Lemma run_destroyed evs s s' :
  Inv s → destroyed s = true → run evs s = Return s' →
  destroyed s' = true ∧ promise s' = promise s ∧ trace s' = trace s.
Proof.
  revert s. induction evs as [|ev rest IH]; intros s HI Hd; simpl.
  - by intros [= <-].
  - destruct (step ev s) as [s1|e] eqn:Hstep; simpl; [|done].
    pose proof (step_inv _ _ _ HI Hstep) as HI1.
    apply step_destroyed in Hstep as (Hd1 & Hp1 & Ht1); [|done..].
    intros H. apply IH in H as (? & ? & ?); [|done..].
    repeat split; congruence.
Qed.

(** What [destroy] does to a live attempt, cleanup by cleanup. *)
Lemma destroy_live error s :
  callbacks s = [StopIframeMonitor; RemoveListenerAndReject] →
  destroyed s = false →
  ∃ s', destroy error s = Return s'
    ∧ destroyed s' = true ∧ listening s' = false ∧ watching s' = false
    ∧ promise s' =
        match error, promise s with
        | Some e, Pending => Rejected e
        | _, p => p
        end
    ∧ posts_in (trace s') = posts_in (trace s)
    ∧ causes_in (trace s') = error :: error :: causes_in (trace s).
Proof.
  destruct s as [c d cbs p l w t e tr].
  intros Hcb Hd; simpl in *; subst.
  unfold destroy; simpl.
  destruct error as [err|], p; simpl; eexists; (split; [reflexivity|]); done.
Qed.

(** The key set of the interface built from an array of names. *)
Lemma buildCallSender_dom target (names : list string) :
  dom (buildCallSender target names) = list_to_set names.
Proof.
  unfold buildCallSender.
  assert (∀ (acc : CallSender),
    dom (foldl (λ api name, <[name := mkProxy name target]> api) acc names)
    = list_to_set names ∪ dom acc) as Hgen.
  { induction names as [|n rest IH]; intros acc; simpl.
    - by rewrite (left_id_L ∅ (∪)).
    - rewrite IH, dom_insert_L.
      by rewrite (assoc_L (∪)), (comm_L (∪) (list_to_set rest)). }
  by rewrite Hgen, dom_empty_L, (right_id_L ∅ (∪)).
Qed.

(** The interface built from an array of names is a thenable exactly when
    the array names [then]. *)
Lemma buildCallSender_thenable target (names : list string) :
  is_thenable (buildCallSender target names) = true ↔ "then" ∈ names.
Proof.
  unfold is_thenable.
  rewrite <- (elem_of_list_to_set (C := gset string)),
    <- (buildCallSender_dom target), elem_of_dom.
  destruct (buildCallSender target names !! "then") as [stub|].
  - split; [by eexists|done].
  - split; [done|]. by intros [stub ?].
Qed.

Lemma resolution_thenable target (names : list string) :
  "then" ∈ names →
  resolution (buildCallSender target names)
  = Adopting (buildCallSender target names).
Proof.
  intros Hin. unfold resolution.
  by rewrite (proj2 (buildCallSender_thenable target names) Hin).
Qed.

Lemma resolution_plain target (names : list string) :
  "then" ∉ names →
  resolution (buildCallSender target names)
  = Fulfilled (buildCallSender target names).
Proof.
  intros Hnot. unfold resolution.
  destruct (is_thenable (buildCallSender target names)) eqn:Ht; [|done].
  by apply buildCallSender_thenable in Ht.
Qed.

(** The cleanups can reject the promise, never fulfil it. *)
Lemma run_callbacks_fulfilled cbs error s s' callSender :
  run_callbacks cbs error s = Return s' →
  promise s' = Fulfilled callSender → promise s = Fulfilled callSender.
Proof.
  revert s. induction cbs as [|cb rest IH]; simpl.
  - by intros s [= <-].
  - intros [c d cbs0 p l w t e0 tr]; simpl.
    destruct cb, error as [e|], p; simpl; intros H Hp;
      by specialize (IH _ H Hp).
Qed.

(** Run without a cause, the cleanups leave the promise alone and every
    invocation they add to the trace carries no cause. *)
Lemma run_callbacks_no_cause cbs s s' :
  run_callbacks cbs None s = Return s' →
  promise s' = promise s
  ∧ ∀ eff, eff ∈ trace s' →
      eff ∈ trace s ∨ ∃ cb, eff = CleanupRan cb None.
Proof.
  revert s. induction cbs as [|cb rest IH]; simpl.
  - intros s [= <-]. eauto.
  - intros [c d cbs0 p l w t e0 tr]; simpl.
    destruct cb; simpl; intros H; apply IH in H as [Hp Ht]; simpl in *.
    all: split; [done|]; intros eff Hin.
    all: destruct (Ht _ Hin) as [Hold|?]; [|by right].
    all: apply elem_of_cons in Hold as [->|?]; eauto.
Qed.

(** Only the Ack branch of [handleMessage] fulfils the promise, and only
    for an Ack of the expected origin. *)
Lemma fulfilled_only_by_ack ev s s' callSender :
  step ev s = Return s' → promise s = Pending →
  promise s' = Fulfilled callSender →
  ∃ event d, ev = MessageArrived event ∧ data event = Some d
    ∧ penpal d = Some MessageType_Ack
    ∧ origin event = expectedOrigin (closure s).
Proof.
  destruct s as [c d cbs p l w t e tr].
  intros Hstep Hp Hf; simpl in *; subst. unfold_model Hstep.
  destruct ev as [event| | |arg], t; simpl in Hstep.
  all: branches Hstep; simplify_eq/=.
  all: try (eexists _, _; repeat split; eassumption).
  all: by apply run_callbacks_fulfilled with (callSender := callSender)
    in Hstep.
Qed.

(** The first Ack of the expected origin seen by a listening attempt: the
    interface is built once and the promise is resolved with it. *)
Lemma first_ack_step s event d :
  listening s = true → established s = false → promise s = Pending →
  data event = Some d → penpal d = Some MessageType_Ack →
  origin event = expectedOrigin (closure s) →
  ∃ s', step (MessageArrived event) s = Return s'
    ∧ promise s' =
        resolution (buildCallSender (originForSending (closure s))
                                    (methodNames d))
    ∧ builds_in (trace s') = methodNames d :: builds_in (trace s)
    ∧ resolutions_in (trace s') =
        buildCallSender (originForSending (closure s)) (methodNames d)
        :: resolutions_in (trace s).
Proof.
  destruct s as [c dd cbs p l w t e tr].
  intros Hl Hest Hp Hdata Htag Horigin; simpl in *; subst.
  unfold handleMessage, handleAckMessage. rewrite Hdata, Htag, Horigin.
  simpl. rewrite bool_decide_eq_true_2 by done. simpl.
  unfold resolve, stopConnectionTimeout, resolution, invokeThenStub.
  destruct t; simpl;
    destruct (is_thenable (buildCallSender (originForSending c)
                                           (methodNames d)));
    simpl; eexists; (split; [reflexivity|done]).
Qed.

(** While only messages other than the expected Ack arrive, the attempt
    stays live and its result pending. *)
Lemma still_waiting_step ev s s' :
  Inv s → destroyed s = false → promise s = Pending →
  still_waiting (closure s) ev = true → step ev s = Return s' →
  destroyed s' = false ∧ promise s' = Pending.
Proof.
  destruct s as [c d cbs p l w t e tr].
  intros [Hcb Hl Hw Hrej Hest Htim Hset Hcl Hcau] Hd Hp Hq Hstep;
    simpl in *; subst.
  destruct ev as [event| | |arg]; try done.
  unfold still_waiting, expected_ack in Hq. unfold_model Hstep.
  destruct (data event) as [m|]; [|by simplify_eq].
  destruct (bool_decide_reflect (penpal m = Some MessageType_Ack)) as [Ha|Ha],
    (bool_decide_reflect (origin event = expectedOrigin c)) as [Ho|Ho];
    try done.
  all: branches Hstep; by simplify_eq/=.
Qed.

Lemma still_waiting_run evs s s' :
  Inv s → destroyed s = false → promise s = Pending →
  forallb (still_waiting (closure s)) evs = true → run evs s = Return s' →
  destroyed s' = false ∧ promise s' = Pending.
Proof.
  revert s. induction evs as [|ev rest IH]; intros s HI Hd Hp; simpl.
  - by intros _ [= <-].
  - intros [Hq Hrest]%andb_prop.
    destruct (step ev s) as [s1|e] eqn:Hstep; simpl; [|done].
    destruct (still_waiting_step _ _ _ HI Hd Hp Hq Hstep) as [Hd1 Hp1].
    apply IH; [by eapply step_inv|done..|].
    by rewrite (step_closure _ _ _ Hstep).
Qed.

(** A live attempt (not destroyed, result pending) listens and has not
    seen its Ack; the first Ack of the expected origin resolves it. *)
Lemma ack_on_live_attempt s event d :
  Inv s → destroyed s = false → promise s = Pending →
  data event = Some d → penpal d = Some MessageType_Ack →
  origin event = expectedOrigin (closure s) →
  ∃ s', step (MessageArrived event) s = Return s'
    ∧ promise s' =
        resolution (buildCallSender (originForSending (closure s))
                                    (methodNames d))
    ∧ builds_in (trace s') = methodNames d :: builds_in (trace s)
    ∧ resolutions_in (trace s') =
        buildCallSender (originForSending (closure s)) (methodNames d)
        :: resolutions_in (trace s).
Proof.
  intros HI Hd Hp Hdata Htag Horigin.
  apply first_ack_step; try done.
  - by rewrite (inv_listening _ HI), Hd.
  - by rewrite (inv_established _ HI), Hp.
Qed.



(** On a live attempt with a positive timeout the timer is still scheduled;
    its firing destroys the attempt with the timeout error. *)
Lemma timeout_on_live_attempt s ms :
  Inv s → timeoutOption (closure s) = Some ms → (0 < ms)%Z →
  destroyed s = false → promise s = Pending →
  ∃ s', step TimeoutElapsed s = Return s'
    ∧ destroyed s' = true
    ∧ listening s' = false
    ∧ promise s' = Rejected timeoutError.
Proof.
  intros HI Hms Hpos Hd Hp.
  pose proof (inv_timer _ HI Hd Hp) as Ht.
  rewrite Hms in Ht. simpl in Ht.
  rewrite (proj2 (Z.ltb_lt 0 ms) Hpos) in Ht.
  simpl. unfold fireConnectionTimeout. rewrite Ht.
  destruct (destroy_live (Some timeoutError) (set_timer TimerFired s))
    as (s' & Hs' & Hd' & Hl' & _ & Hp' & _);
    [apply (inv_callbacks _ HI) | done |].
  simpl in Hp'. rewrite Hp in Hp'. by exists s'.
Qed.

(** ** Properties of a connection attempt *)

Section Attempt.

Variable getOriginFromSrc : string → Completion string.

(** The state [connectToChild] hands back with the handle. *)
Lemma connect_start options s0 :
  connectToChild getOriginFromSrc options = Return s0 →
  Inv s0 ∧ destroyed s0 = false ∧ promise s0 = Pending ∧ trace s0 = []
  ∧ timeoutOption (closure s0) = timeout options
  ∧ serializedMethods (closure s0) = dom (methods options)
  ∧ (truthy (childOrigin options) = true →
     childOrigin options = Some (expectedOrigin (closure s0))).
Proof.
  unfold connectToChild, executor, monitorIframeRemoval, onDestroy,
    addEventListener, startConnectionTimeout, serializeMethods.
  destruct (resolveChildOrigin getOriginFromSrc options) as [o|e] eqn:Ho;
    simpl; [|done].
  assert (truthy (childOrigin options) = true →
          childOrigin options = Some o) as Horigin.
  { unfold resolveChildOrigin in Ho. intros Ht. rewrite Ht in Ho.
    destruct (childOrigin options); simpl in *; [congruence|done]. }
  destruct (timeout options) as [ms|] eqn:Hms; simpl;
    [destruct (0 <? ms)%Z eqn:Hpos|]; simpl; intros [= <-]; simpl.
  all: repeat split; simpl; try done.
  all: unfold scheduledTimer; by rewrite ?Hpos.
Qed.

(** Every run of events goes through: no handler of the attempt throws. *)
Lemma attempt_runs options s0 evs :
  connectToChild getOriginFromSrc options = Return s0 →
  ∃ s, run evs s0 = Return s ∧ Inv s.
Proof.
  intros Hc. destruct (run_returns evs s0) as [s Hs].
  exists s. split; [done|].
  apply connect_start in Hc as [HI _]. by eapply run_inv.
Qed.

Lemma connect_wiring options s0 :
  connectToChild getOriginFromSrc options = Return s0 → Wiring s0.
Proof.
  intros Hc. apply connect_start in Hc as (_ & _ & Hp & Ht & _).
  constructor; rewrite ?Hp, ?Ht; simpl; try done.
Qed.

(** What holds of the attempt after any events. *)
Lemma attempt_state options s0 evs s :
  connectToChild getOriginFromSrc options = Return s0 →
  run evs s0 = Return s →
  Inv s ∧ Wiring s ∧ closure s = closure s0.
Proof.
  intros Hc Hrun.
  pose proof (connect_wiring _ _ Hc) as HW0.
  apply connect_start in Hc as (HI0 & _).
  split; [by eapply run_inv|].
  split; [by eapply run_wiring|by eapply run_closure].
Qed.

(** C1, as the code has it.  When the consumer calls the handle's
    [destroy] while the result is still pending, the result is not
    rejected: it stays pending, then and after every later event.  The
    listener is removed, every cleanup was invoked without a cause, and no
    handshake message is sent afterwards. *)
Theorem destroy_before_settlement_leaves_pending options s0 evs s arg :
  connectToChild getOriginFromSrc options = Return s0 →
  run evs s0 = Return s →
  promise s = Pending →
  ∃ s', step (DestroyCalled arg) s = Return s'
    ∧ promise s' = Pending
    ∧ listening s' = false
    ∧ Forall (λ cause, cause = None) (causes_in (trace s'))
    ∧ ∀ later s'', run later s' = Return s'' →
        promise s'' = Pending
        ∧ posts_in (trace s'') = posts_in (trace s').
Proof.
  intros Hc Hrun Hp.
  apply connect_start in Hc as (HI0 & _).
  pose proof (run_inv _ _ _ HI0 Hrun) as HI.
  destruct (destroyed s) eqn:Hd.
  - exists s. simpl. unfold handle_destroy, destroy. rewrite Hd.
    split; [done|]. split; [done|].
    split; [by rewrite (inv_listening _ HI), Hd|].
    split; [by apply (inv_causes _ HI)|].
    intros later s'' Hlater.
    apply run_destroyed in Hlater as (_ & Hp' & Ht'); [|done..].
    by rewrite Hp', Ht'.
  - destruct (destroy_live None s (inv_callbacks _ HI) Hd)
      as (s' & Hs' & Hd' & Hl' & _ & Hp' & Hposts & Hcauses).
    exists s'. simpl. unfold handle_destroy.
    split; [done|]. rewrite Hp in Hp'. simpl in Hp'.
    split; [done|]. split; [done|].
    split.
    { rewrite Hcauses. repeat constructor. by apply (inv_causes _ HI). }
    intros later s'' Hlater.
    assert (Inv s') as HI' by (eapply (step_inv (DestroyCalled arg)); eauto).
    apply run_destroyed in Hlater as (_ & Hp'' & Ht''); [|done..].
    by rewrite Hp'', Ht''.
Qed.

(** C2, as the code has it.  When the caller supplies no origin and the
    origin cannot be determined (the iframe validation fails, or the
    resolver does), [connectToChild] throws that failure synchronously: no
    handle is returned, so there is no eventual result to reject. *)
Theorem unresolved_origin_throws options e :
  truthy (childOrigin options) = false →
  validateIframeHasSrcOrSrcDoc (iframe options) = Throw e
  ∨ (validateIframeHasSrcOrSrcDoc (iframe options) = Return tt
     ∧ getOriginFromSrc (src (iframe options)) = Throw e) →
  connectToChild getOriginFromSrc options = Throw e.
Proof.
  intros Ht Hfail. unfold connectToChild, resolveChildOrigin.
  rewrite Ht. destruct Hfail as [Hv|[Hv Hr]]; rewrite Hv; simpl; [done|].
  by rewrite Hr.
Qed.

(** C3.  Whatever events reach an attempt, in whatever order and number
    (any number of [destroy] calls among them), every handler returns, the
    result has settled at most once, and each registered cleanup has been
    invoked at most once; a further [destroy] returns without throwing and
    still leaves each cleanup invoked at most once. *)
Theorem settles_once_destroy_idempotent options s0 evs :
  connectToChild getOriginFromSrc options = Return s0 →
  ∃ s, run evs s0 = Return s
    ∧ settlements_in (trace s) ≤ 1
    ∧ (∀ cb, cleanups_in cb (trace s) ≤ 1)
    ∧ ∀ arg, ∃ s', handle_destroy arg s = Return s'
        ∧ settlements_in (trace s') ≤ 1
        ∧ (∀ cb, cleanups_in cb (trace s') ≤ 1)
        ∧ (destroyed s = true → s' = s).
Proof.
  intros Hc. destruct (attempt_runs _ _ evs Hc) as (s & Hrun & HI).
  assert (∀ s, Inv s →
    settlements_in (trace s) ≤ 1 ∧ ∀ cb, cleanups_in cb (trace s) ≤ 1)
    as Hbound.
  { intros s1 HI1. split.
    - rewrite (inv_settlements _ HI1). destruct (is_settled _); lia.
    - intros cb. rewrite (inv_cleanups _ HI1). destruct (destroyed _); lia. }
  exists s. split; [done|].
  destruct (Hbound _ HI) as [Hs Hcl]. split; [done|]. split; [done|].
  intros arg. destruct (step_returns (DestroyCalled arg) s) as [s' Hs'].
  exists s'. split; [done|].
  destruct (Hbound s' (step_inv _ _ _ HI Hs')) as [Hs1 Hcl1].
  split; [done|]. split; [done|].
  intros Hd. simpl in Hs'. unfold handle_destroy, destroy in Hs'.
  rewrite Hd in Hs'. congruence.
Qed.

(** C4 fails on the code for an Ack that advertises a method named
    [then].  So far only messages other than the expected Ack have reached
    the attempt; the Ack from the expected origin makes line 116 resolve the
    promise with an interface that has a [then] stub.  The promise adopts
    it instead of being fulfilled with it, and from then on it never
    settles: no later event fulfils or rejects it. *)
Theorem ack_advertising_then_never_fulfils options s0 evs event d :
  connectToChild getOriginFromSrc options = Return s0 →
  forallb (still_waiting (closure s0)) evs = true →
  data event = Some d →
  penpal d = Some MessageType_Ack →
  origin event = expectedOrigin (closure s0) →
  "then" ∈ methodNames d →
  ∃ s s',
    run evs s0 = Return s
    ∧ step (MessageArrived event) s = Return s'
    ∧ promise s' =
        Adopting (buildCallSender (originForSending (closure s0))
                                  (methodNames d))
    ∧ ∀ later s'', run later s' = Return s'' →
        promise s'' = promise s'
        ∧ is_fulfilled (promise s'') = false
        ∧ settlements_in (trace s'') = 0.
Proof.
  intros Hc Hwait Hdata Htag Horigin Hthen.
  destruct (attempt_runs _ _ evs Hc) as (s & Hrun & HI).
  apply connect_start in Hc as (HI0 & Hd0 & Hp0 & _).
  destruct (still_waiting_run _ _ _ HI0 Hd0 Hp0 Hwait Hrun) as [Hd Hp].
  pose proof (run_closure _ _ _ Hrun) as Hcl.
  rewrite <- Hcl in Horigin.
  destruct (ack_on_live_attempt s event d) as (s' & Hs' & Hp' & _);
    [done..|].
  rewrite resolution_thenable, Hcl in Hp' by done.
  pose proof (step_inv _ _ _ HI Hs') as HI'.
  exists s, s'. split; [done|]. split; [done|]. split; [done|].
  intros later s'' Hlater.
  pose proof (run_inv _ _ _ HI' Hlater) as HI''.
  apply run_settled in Hlater as [Hp'' _]; [|by rewrite Hp'].
  split; [done|]. rewrite (inv_settlements _ HI''), Hp'', Hp'. done.
Qed.

(** C5.  With a positive timeout, when only messages other than the
    expected Ack have reached the attempt and the timer fires, the result
    is rejected with [ConnectionTimedOut] and the message listener is
    removed; no later event changes the result or adds an effect. *)
Theorem timeout_rejects_and_unsubscribes options ms s0 evs :
  connectToChild getOriginFromSrc options = Return s0 →
  timeout options = Some ms →
  (0 < ms)%Z →
  forallb (still_waiting (closure s0)) evs = true →
  ∃ s s',
    run evs s0 = Return s
    ∧ step TimeoutElapsed s = Return s'
    ∧ promise s' = Rejected (mkPenpalError ConnectionTimedOut)
    ∧ listening s' = false
    ∧ ∀ later s'', run later s' = Return s'' →
        promise s'' = Rejected (mkPenpalError ConnectionTimedOut)
        ∧ trace s'' = trace s'.
Proof.
  intros Hc Hms Hpos Hwait.
  destruct (attempt_runs _ _ evs Hc) as (s & Hrun & HI).
  apply connect_start in Hc as (HI0 & Hd0 & Hp0 & _ & Hto & _).
  destruct (still_waiting_run _ _ _ HI0 Hd0 Hp0 Hwait Hrun) as [Hd Hp].
  rewrite <- (run_closure _ _ _ Hrun), Hms in Hto.
  destruct (timeout_on_live_attempt s ms) as (s' & Hs' & Hd' & Hl' & Hp');
    [done..|].
  exists s, s'. split; [done|]. split; [done|]. split; [done|].
  split; [done|].
  intros later s'' Hlater.
  pose proof (step_inv _ _ _ HI Hs') as HI'.
  apply run_destroyed in Hlater as (_ & Hp'' & Ht''); [|done..].
  by rewrite Hp'', Hp'.
Qed.


End Attempt.

(** ** Properties of the message handler and of the handle *)

(** C6.  A Syn or an Ack whose sender origin is not the expected one leaves
    the attempt exactly as it was: same state, nothing added to the trace
    (no message sent, no settlement, no cleanup). *)
Theorem foreign_origin_handshake_discarded s event d :
  data event = Some d →
  penpal d = Some MessageType_Syn ∨ penpal d = Some MessageType_Ack →
  origin event ≠ expectedOrigin (closure s) →
  handleMessage event s = Return s
  ∧ step (MessageArrived event) s = Return s.
Proof.
  intros Hdata Htag Horigin.
  assert (handleMessage event s = Return s) as Hh.
  { unfold handleMessage, handleSynMessage, handleAckMessage. rewrite Hdata.
    destruct Htag as [-> | ->]; simpl;
      by rewrite (bool_decide_eq_false_2 _ Horigin). }
  split; [done|]. simpl. by destruct (listening s).
Qed.

(** C7.  A message without data, or whose data carries neither handshake
    tag, leaves the attempt exactly as it was: no handler runs, nothing is
    added to the trace. *)
Theorem untagged_message_untouched s event :
  data event = None
  ∨ (∃ d, data event = Some d
        ∧ penpal d ≠ Some MessageType_Syn
        ∧ penpal d ≠ Some MessageType_Ack) →
  handleMessage event s = Return s
  ∧ step (MessageArrived event) s = Return s.
Proof.
  intros Hdata.
  assert (handleMessage event s = Return s) as Hh.
  { unfold handleMessage. destruct Hdata as [-> | (d & -> & Hsyn & Hack)];
      [done|].
    by rewrite (bool_decide_eq_false_2 _ Hsyn),
      (bool_decide_eq_false_2 _ Hack). }
  split; [done|]. simpl. by destruct (listening s).
Qed.

(** C9.  Handling a Syn, from whatever origin, never changes the promise,
    the Ack handler's state or the destructor; and a step that takes the
    promise from pending to fulfilled is the handling of an Ack from the
    expected origin. *)
Theorem syn_never_establishes s event d :
  data event = Some d →
  penpal d = Some MessageType_Syn →
  (∃ s', step (MessageArrived event) s = Return s'
     ∧ promise s' = promise s
     ∧ established s' = established s
     ∧ destroyed s' = destroyed s
     ∧ settlements_in (trace s') = settlements_in (trace s))
  ∧ ∀ ev s1 s2 callSender,
      step ev s1 = Return s2 → promise s1 = Pending →
      promise s2 = Fulfilled callSender →
      ∃ event' d', ev = MessageArrived event' ∧ data event' = Some d'
        ∧ penpal d' = Some MessageType_Ack
        ∧ origin event' = expectedOrigin (closure s1).
Proof.
  intros Hdata Htag. split.
  - simpl. destruct (listening s); [|by exists s].
    unfold handleMessage, handleSynMessage. rewrite Hdata, Htag. simpl.
    case_bool_decide; eexists; (split; [reflexivity|done]).
  - intros ev s1 s2 callSender. apply fulfilled_only_by_ack.
Qed.

(** C10.  Whatever the consumer passes to the handle's [destroy], the call
    does what a call without argument does: the promise is left as it was,
    and every cleanup invocation the call adds carries no cause. *)
Theorem destroy_argument_dropped arg s :
  step (DestroyCalled arg) s = step (DestroyCalled JSUndefined) s
  ∧ ∃ s', step (DestroyCalled arg) s = Return s'
      ∧ promise s' = promise s
      ∧ ∀ cb cause, CleanupRan cb cause ∈ trace s' →
          CleanupRan cb cause ∈ trace s ∨ cause = None.
Proof.
  split; [done|].
  destruct (step_returns (DestroyCalled arg) s) as [s' Hs'].
  exists s'. split; [done|].
  simpl in Hs'. unfold handle_destroy, destroy in Hs'.
  destruct (destroyed s).
  - injection Hs' as <-. split; [done|]. by left.
  - apply run_callbacks_no_cause in Hs' as [Hp Ht]. split; [done|].
    intros cb cause Hin. destruct (Ht _ Hin) as [?|[cb' [= _ ->]]]; auto.
Qed.

(** ** The concrete attempt, checked against the theorems *)

Example demo_connect :
  connectToChild demoResolver demoOptions = Return demoStart.
Proof. reflexivity. Qed.

Example demo_after_syn :
  run [MessageArrived demoSyn] demoStart = Return demoAfterSyn.
Proof. reflexivity. Qed.

(** C1 as the specification states it does not hold: on the fresh attempt
    [demoStart], whose result is pending, the handle's [destroy] returns a
    state whose promise is not rejected. *)
Lemma destroy_before_settlement_counterexample :
  connectToChild demoResolver demoOptions = Return demoStart
  ∧ promise demoStart = Pending
  ∧ ¬ ∃ s' error,
        step (DestroyCalled JSUndefined) demoStart = Return s'
        ∧ promise s' = Rejected error.
Proof.
  split; [reflexivity|]. split; [reflexivity|].
  intros (s' & error & Hstep & Hp). vm_compute in Hstep.
  injection Hstep as <-. discriminate Hp.
Qed.

Lemma destroy_before_settlement_witness :
  ∃ s', step (DestroyCalled (JSError (mkPenpalError ConnectionDestroyed)))
             demoAfterSyn = Return s'
    ∧ promise s' = Pending
    ∧ listening s' = false
    ∧ Forall (λ cause, cause = None) (causes_in (trace s'))
    ∧ ∀ later s'', run later s' = Return s'' →
        promise s'' = Pending
        ∧ posts_in (trace s'') = posts_in (trace s').
Proof.
  apply (destroy_before_settlement_leaves_pending demoResolver demoOptions
           demoStart [MessageArrived demoSyn] demoAfterSyn);
    reflexivity.
Defined.

(** C2 as the specification states it does not hold: with [blankOptions]
    no origin is supplied and none can be determined, and [connectToChild]
    throws instead of returning a handle whose result could reject. *)
Lemma unresolved_origin_counterexample :
  truthy (childOrigin blankOptions) = false
  ∧ connectToChild demoResolver blankOptions
    = Throw (mkPenpalError PrincipalUnresolved)
  ∧ ¬ ∃ s0, connectToChild demoResolver blankOptions = Return s0.
Proof.
  split; [reflexivity|]. split; [reflexivity|].
  intros (s0 & Hc). discriminate Hc.
Qed.

Lemma unresolved_origin_witness :
  connectToChild demoResolver blankOptions
  = Throw (mkPenpalError PrincipalUnresolved).
Proof.
  apply (unresolved_origin_throws demoResolver blankOptions).
  - reflexivity.
  - left. reflexivity.
Defined.

Lemma settles_once_witness :
  ∃ s, run [DestroyCalled JSNull; MessageArrived demoAck; TimeoutElapsed;
            DestroyCalled (JSNumber 7); IframeRemoved] demoStart = Return s
    ∧ settlements_in (trace s) ≤ 1
    ∧ (∀ cb, cleanups_in cb (trace s) ≤ 1)
    ∧ ∀ arg, ∃ s', handle_destroy arg s = Return s'
        ∧ settlements_in (trace s') ≤ 1
        ∧ (∀ cb, cleanups_in cb (trace s') ≤ 1)
        ∧ (destroyed s = true → s' = s).
Proof.
  apply (settles_once_destroy_idempotent demoResolver demoOptions demoStart).
  reflexivity.
Defined.

Lemma ack_advertising_then_witness :
  ∃ s s',
    run [MessageArrived demoSyn; MessageArrived foreignAck] demoStart
    = Return s
    ∧ step (MessageArrived demoThenAck) s = Return s'
    ∧ promise s' =
        Adopting (buildCallSender "https://child.example"
                                  ["multiply"; "then"])
    ∧ ∀ later s'', run later s' = Return s'' →
        promise s'' = promise s'
        ∧ is_fulfilled (promise s'') = false
        ∧ settlements_in (trace s'') = 0.
Proof.
  apply (ack_advertising_then_never_fulfils demoResolver demoOptions
           demoStart [MessageArrived demoSyn; MessageArrived foreignAck]
           demoThenAck
           (mkData (Some MessageType_Ack) ["multiply"; "then"])).
  - reflexivity.
  - reflexivity.
  - reflexivity.
  - reflexivity.
  - reflexivity.
  - apply list_elem_of_further, list_elem_of_here.
Defined.

Lemma timeout_rejects_witness :
  ∃ s s',
    run [MessageArrived demoSyn; MessageArrived callMessage] demoStart
    = Return s
    ∧ step TimeoutElapsed s = Return s'
    ∧ promise s' = Rejected (mkPenpalError ConnectionTimedOut)
    ∧ listening s' = false
    ∧ ∀ later s'', run later s' = Return s'' →
        promise s'' = Rejected (mkPenpalError ConnectionTimedOut)
        ∧ trace s'' = trace s'.
Proof.
  apply (timeout_rejects_and_unsubscribes demoResolver demoOptions 2000
           demoStart [MessageArrived demoSyn; MessageArrived callMessage]);
    reflexivity.
Defined.

Lemma foreign_origin_witness :
  handleMessage foreignAck demoStart = Return demoStart
  ∧ step (MessageArrived foreignAck) demoStart = Return demoStart.
Proof.
  apply (foreign_origin_handshake_discarded demoStart foreignAck
           (mkData (Some MessageType_Ack) ["steal"])).
  - reflexivity.
  - right. reflexivity.
  - simpl. discriminate.
Defined.

Lemma untagged_message_witness :
  handleMessage callMessage demoStart = Return demoStart
  ∧ step (MessageArrived callMessage) demoStart = Return demoStart.
Proof.
  apply (untagged_message_untouched demoStart callMessage).
  right. exists (mkData (Some "call") []).
  split; [reflexivity|]. split; simpl; discriminate.
Defined.


Lemma syn_never_establishes_witness :
  ∃ s', step (MessageArrived demoSyn) demoStart = Return s'
    ∧ promise s' = Pending
    ∧ established s' = false
    ∧ destroyed s' = false
    ∧ settlements_in (trace s') = 0.
Proof.
  apply (syn_never_establishes demoStart demoSyn
           (mkData (Some MessageType_Syn) [])); reflexivity.
Defined.


(** ** Further properties of the wiring *)

(** The cleanups never touch the timer, whatever the list and the cause. *)
Lemma run_callbacks_timer cbs error s s' :
  run_callbacks cbs error s = Return s' → timer s' = timer s.
Proof.
  revert s. induction cbs as [|cb rest IH]; simpl.
  - by intros s [= <-].
  - intros [c d cbs0 p l w t e0 tr]; simpl.
    destruct cb, error as [e|], p; simpl; intros H; by apply IH in H.
Qed.

Section Wiring.

Variable getOriginFromSrc : string → Completion string.

(** The closure constants [connectToChild] computes on lines 71-80. *)
Lemma connect_closure options s0 :
  connectToChild getOriginFromSrc options = Return s0 →
  ∃ o, resolveChildOrigin getOriginFromSrc options = Return o
    ∧ closure s0 =
        mkClosure o (if bool_decide (o = "null") then "*" else o)
                  (dom (methods options)) (timeout options).
Proof.
  unfold connectToChild, executor, monitorIframeRemoval, onDestroy,
    addEventListener, startConnectionTimeout, serializeMethods.
  destruct (resolveChildOrigin getOriginFromSrc options) as [o|e]; simpl;
    [|done].
  intros H. exists o. split; [done|].
  destruct (timeout options) as [ms|]; simpl in H;
    [destruct (0 <? ms)%Z|]; by injection H as <-.
Qed.

(** X1.  An origin supplied by the caller is taken as it is: the iframe is
    not validated and the resolver is not asked, so establishment returns a
    handle whatever the iframe looks like and whatever the resolver would
    do. *)
Theorem supplied_origin_skips_resolution options o :
  childOrigin options = Some o →
  o ≠ EmptyString →
  ∃ s0, connectToChild getOriginFromSrc options = Return s0
    ∧ expectedOrigin (closure s0) = o.
Proof.
  intros Ho Hne.
  assert (resolveChildOrigin getOriginFromSrc options = Return o) as Hr.
  { unfold resolveChildOrigin, truthy. rewrite Ho.
    by rewrite (bool_decide_eq_false_2 _ Hne). }
  destruct (connectToChild getOriginFromSrc options) as [s0|e] eqn:Hc.
  - exists s0. split; [done|].
    apply connect_closure in Hc as (o' & Hr' & ->). simpl. congruence.
  - unfold connectToChild in Hc. rewrite Hr in Hc. simpl in Hc.
    unfold executor, monitorIframeRemoval, onDestroy in Hc. done.
Qed.

(** X2.  An absent origin and an empty one are the same to line 71: when
    the iframe has a [src] or a [srcdoc], the expected origin is what the
    resolver makes of [iframe.src], also when only [srcdoc] is set and
    [src] is empty. *)
Theorem absent_origin_resolved_from_src options o :
  childOrigin options = None ∨ childOrigin options = Some EmptyString →
  src (iframe options) ≠ EmptyString
  ∨ srcdoc (iframe options) ≠ EmptyString →
  getOriginFromSrc (src (iframe options)) = Return o →
  ∃ s0, connectToChild getOriginFromSrc options = Return s0
    ∧ expectedOrigin (closure s0) = o.
Proof.
  intros Habsent Hloc Hres.
  assert (resolveChildOrigin getOriginFromSrc options = Return o) as Hr.
  { unfold resolveChildOrigin, validateIframeHasSrcOrSrcDoc.
    assert (truthy (childOrigin options) = false) as ->
      by (by destruct Habsent as [-> | ->]).
    destruct Hloc as [Hs|Hs]; rewrite (bool_decide_eq_false_2 _ Hs);
      rewrite ?andb_false_r; simpl; done. }
  destruct (connectToChild getOriginFromSrc options) as [s0|e] eqn:Hc.
  - exists s0. split; [done|].
    apply connect_closure in Hc as (o' & Hr' & ->). simpl. congruence.
  - unfold connectToChild in Hc. rewrite Hr in Hc. simpl in Hc.
    unfold executor, monitorIframeRemoval, onDestroy in Hc. done.
Qed.

(** X3.  The two origins of an attempt never change, whatever events reach
    it.  The origin used for sending is the wildcard when the expected
    origin is the opaque origin [null], and the expected origin itself
    otherwise (so it is the wildcard as well when the expected origin
    already is the wildcard). *)
Theorem sending_origin_follows_expected options s0 evs s :
  connectToChild getOriginFromSrc options = Return s0 →
  run evs s0 = Return s →
  closure s = closure s0
  ∧ originForSending (closure s) =
      if bool_decide (expectedOrigin (closure s) = "null") then "*"
      else expectedOrigin (closure s).
Proof.
  intros Hc Hrun.
  destruct (attempt_state _ _ _ _ _ Hc Hrun) as (_ & _ & Hcl).
  split; [done|]. rewrite Hcl.
  by apply connect_closure in Hc as (o & _ & ->).
Qed.

(** X4.  Establishment is passive: when [connectToChild] returns, the
    result is pending, nothing was sent, settled or cleaned up, the message
    listener and the iframe watch are on, the timer is scheduled exactly for
    a positive timeout, and the two cleanups are registered in the order
    watch, listener. *)
Theorem establishment_is_passive options s0 :
  connectToChild getOriginFromSrc options = Return s0 →
  promise s0 = Pending
  ∧ trace s0 = []
  ∧ destroyed s0 = false
  ∧ listening s0 = true
  ∧ watching s0 = true
  ∧ established s0 = false
  ∧ timer s0 = scheduledTimer (timeout options)
  ∧ callbacks s0 = [StopIframeMonitor; RemoveListenerAndReject].
Proof.
  intros Hc. apply connect_start in Hc as (HI & Hd & Hp & Ht & Hto & _).
  split; [done|]. split; [done|]. split; [done|].
  split; [by rewrite (inv_listening _ HI), Hd|].
  split; [by rewrite (inv_watching _ HI), Hd|].
  split; [by rewrite (inv_established _ HI), Hp|].
  split; [by rewrite (inv_timer _ HI Hd Hp), Hto|].
  apply (inv_callbacks _ HI).
Qed.

(** X5.  Once the result is fulfilled the connection timeout is out of the
    game: [stopConnectionTimeout] ran before [resolve], so a timer that
    becomes due changes nothing at all. *)
Theorem established_survives_timeout options s0 evs s callSender :
  connectToChild getOriginFromSrc options = Return s0 →
  run evs s0 = Return s →
  promise s = Fulfilled callSender →
  step TimeoutElapsed s = Return s.
Proof.
  intros Hc Hrun Hp.
  destruct (attempt_state _ _ _ _ _ Hc Hrun) as (_ & HW & _).
  pose proof (wiring_timer _ HW) as Ht. rewrite Hp in Ht.
  specialize (Ht eq_refl). simpl. unfold fireConnectionTimeout.
  destruct (timer s) as [|ms| |]; try done. by destruct (Ht ms).
Qed.

(** X6.  The result is rejected only from inside the destructor's cleanup:
    a rejected attempt is destroyed, its listener is removed, and the
    rejection error is the cause the cleanups were invoked with. *)
Theorem rejection_comes_from_destruction options s0 evs s error :
  connectToChild getOriginFromSrc options = Return s0 →
  run evs s0 = Return s →
  promise s = Rejected error →
  destroyed s = true
  ∧ listening s = false
  ∧ Some error ∈ causes_in (trace s).
Proof.
  intros Hc Hrun Hp.
  destruct (attempt_state _ _ _ _ _ Hc Hrun) as (HI & HW & _).
  assert (destroyed s = true) as Hd
    by (apply (inv_rejected _ HI); by rewrite Hp).
  split; [done|]. split; [by rewrite (inv_listening _ HI), Hd|].
  by apply (wiring_cause _ HW).
Qed.

(** X7.  A destroyed attempt is inert, whatever destroyed it: no later
    event changes the result or adds anything to the trace, and the
    listener stays removed. *)
Theorem destroyed_attempt_is_inert options s0 evs s later s' :
  connectToChild getOriginFromSrc options = Return s0 →
  run evs s0 = Return s →
  destroyed s = true →
  run later s = Return s' →
  promise s' = promise s
  ∧ trace s' = trace s
  ∧ destroyed s' = true
  ∧ listening s' = false.
Proof.
  intros Hc Hrun Hd Hlater.
  destruct (attempt_state _ _ _ _ _ Hc Hrun) as (HI & _ & _).
  pose proof (run_inv _ _ _ HI Hlater) as HI'.
  apply run_destroyed in Hlater as (Hd' & Hp' & Ht'); [|done..].
  repeat split; try done. by rewrite (inv_listening _ HI'), Hd'.
Qed.

(** X8.  As long as the attempt is not destroyed, before and after the
    handshake completed, a Syn from the expected origin is answered by
    exactly one Ack that carries the names of the parent's methods and goes
    to the origin used for sending; nothing else changes. *)
Theorem syn_answered_while_live options s0 evs s event d :
  connectToChild getOriginFromSrc options = Return s0 →
  run evs s0 = Return s →
  destroyed s = false →
  data event = Some d →
  penpal d = Some MessageType_Syn →
  origin event = expectedOrigin (closure s0) →
  step (MessageArrived event) s =
  Return (emit (Posted (Ack (dom (methods options)))
                       (originForSending (closure s0))) s).
Proof.
  intros Hc Hrun Hd Hdata Htag Horigin.
  destruct (attempt_state _ _ _ _ _ Hc Hrun) as (HI & _ & Hcl).
  apply connect_start in Hc as (_ & _ & _ & _ & _ & Hm & _).
  simpl. rewrite (inv_listening _ HI), Hd. simpl.
  unfold handleMessage, handleSynMessage. rewrite Hdata, Htag. simpl.
  rewrite Hcl, Horigin, Hm. by rewrite bool_decide_eq_true_2.
Qed.


(** X10.  The handle's [destroy] does not cancel the connection timeout:
    the cleanup of lines 127-136 leaves the timer scheduled.  When the
    timer becomes due later it finds the attempt destroyed: the result
    stays pending and nothing is added to the trace. *)
Theorem destroy_leaves_timer options ms s0 evs arg :
  connectToChild getOriginFromSrc options = Return s0 →
  timeout options = Some ms →
  (0 < ms)%Z →
  forallb (still_waiting (closure s0)) evs = true →
  ∃ s s' s'',
    run evs s0 = Return s
    ∧ step (DestroyCalled arg) s = Return s'
    ∧ timer s' = TimerScheduled ms
    ∧ step TimeoutElapsed s' = Return s''
    ∧ timer s'' = TimerFired
    ∧ promise s'' = Pending
    ∧ trace s'' = trace s'.
Proof.
  intros Hc Hms Hpos Hwait.
  destruct (attempt_runs _ _ _ evs Hc) as (s & Hrun & HI).
  apply connect_start in Hc as (HI0 & Hd0 & Hp0 & _ & Hto & _).
  destruct (still_waiting_run _ _ _ HI0 Hd0 Hp0 Hwait Hrun) as [Hd Hp].
  pose proof (inv_timer _ HI Hd Hp) as Ht.
  rewrite (run_closure _ _ _ Hrun), Hto, Hms in Ht. simpl in Ht.
  rewrite (proj2 (Z.ltb_lt 0 ms) Hpos) in Ht.
  destruct (destroy_live None s (inv_callbacks _ HI) Hd)
    as (s' & Hs' & Hd' & _ & _ & Hp' & _).
  rewrite Hp in Hp'. simpl in Hp'.
  assert (timer s' = TimerScheduled ms) as Ht'.
  { unfold destroy in Hs'. rewrite Hd in Hs'.
    apply run_callbacks_timer in Hs'. by rewrite Hs'. }
  exists s, s', (set_timer TimerFired s').
  split; [done|]. split; [done|]. split; [done|].
  split; [|done].
  simpl. unfold fireConnectionTimeout, destroy. rewrite Ht'. simpl.
  by rewrite Hd'.
Qed.

(** X11.  Inbound messages alone, as long as none of them is an Ack from
    the expected origin, never settle the result and never destroy the
    attempt: it keeps listening with its timer as scheduled. *)
Theorem messages_without_ack_keep_waiting options s0 evs :
  connectToChild getOriginFromSrc options = Return s0 →
  forallb (still_waiting (closure s0)) evs = true →
  ∃ s, run evs s0 = Return s
    ∧ promise s = Pending
    ∧ destroyed s = false
    ∧ listening s = true
    ∧ timer s = scheduledTimer (timeout options)
    ∧ settlements_in (trace s) = 0.
Proof.
  intros Hc Hwait.
  destruct (attempt_runs _ _ _ evs Hc) as (s & Hrun & HI).
  apply connect_start in Hc as (HI0 & Hd0 & Hp0 & _ & Hto & _).
  destruct (still_waiting_run _ _ _ HI0 Hd0 Hp0 Hwait Hrun) as [Hd Hp].
  exists s. split; [done|]. split; [done|]. split; [done|].
  split; [by rewrite (inv_listening _ HI), Hd|].
  split; [by rewrite (inv_timer _ HI Hd Hp), (run_closure _ _ _ Hrun), Hto|].
  by rewrite (inv_settlements _ HI), Hp.
Qed.

(** X12.  So far only messages other than the expected Ack have reached
    the attempt.  An Ack from the expected origin that advertises no method
    named [then] fulfils the result with an interface whose key set is
    exactly the [methodNames] of that Ack, and nothing that happens later
    changes the result. *)
Theorem ack_without_then_fulfills options s0 evs event d :
  connectToChild getOriginFromSrc options = Return s0 →
  forallb (still_waiting (closure s0)) evs = true →
  data event = Some d →
  penpal d = Some MessageType_Ack →
  origin event = expectedOrigin (closure s0) →
  "then" ∉ methodNames d →
  ∃ s s' callSender,
    run evs s0 = Return s
    ∧ step (MessageArrived event) s = Return s'
    ∧ promise s' = Fulfilled callSender
    ∧ dom callSender = list_to_set (methodNames d)
    ∧ ∀ later s'', run later s' = Return s'' →
        promise s'' = Fulfilled callSender.
Proof.
  intros Hc Hwait Hdata Htag Horigin Hnot.
  destruct (attempt_runs _ _ _ evs Hc) as (s & Hrun & HI).
  apply connect_start in Hc as (HI0 & Hd0 & Hp0 & _).
  destruct (still_waiting_run _ _ _ HI0 Hd0 Hp0 Hwait Hrun) as [Hd Hp].
  rewrite <- (run_closure _ _ _ Hrun) in Horigin.
  destruct (ack_on_live_attempt s event d) as (s' & Hs' & Hp' & _);
    [done..|].
  rewrite resolution_plain in Hp' by done.
  exists s, s',
    (buildCallSender (originForSending (closure s)) (methodNames d)).
  split; [done|]. split; [done|]. split; [done|].
  split; [apply buildCallSender_dom|].
  intros later s'' Hlater.
  apply run_settled in Hlater as [Hp'' _]; [by rewrite Hp''|by rewrite Hp'].
Qed.

End Wiring.

(** ** The further properties on concrete attempts *)

Lemma supplied_origin_witness :
  ∃ s0, connectToChild failingResolver suppliedOriginOptions = Return s0
    ∧ expectedOrigin (closure s0) = "https://child.example".
Proof.
  apply (supplied_origin_skips_resolution failingResolver
           suppliedOriginOptions "https://child.example").
  - reflexivity.
  - discriminate.
Defined.

Lemma absent_origin_witness :
  ∃ s0, connectToChild parentOriginResolver srcdocOptions = Return s0
    ∧ expectedOrigin (closure s0) = "https://parent.example".
Proof.
  apply (absent_origin_resolved_from_src parentOriginResolver srcdocOptions
           "https://parent.example").
  - right. reflexivity.
  - right. simpl. discriminate.
  - reflexivity.
Defined.

Lemma sending_origin_witness :
  closure nullOriginDestroyed = closure nullOriginStart
  ∧ originForSending (closure nullOriginDestroyed) = "*".
Proof.
  apply (sending_origin_follows_expected demoResolver nullOriginOptions
           nullOriginStart
           [MessageArrived nullOriginSyn; TimeoutElapsed;
            DestroyCalled JSNull]
           nullOriginDestroyed); reflexivity.
Defined.

Lemma establishment_is_passive_witness :
  promise demoStart = Pending
  ∧ trace demoStart = []
  ∧ destroyed demoStart = false
  ∧ listening demoStart = true
  ∧ watching demoStart = true
  ∧ established demoStart = false
  ∧ timer demoStart = scheduledTimer (timeout demoOptions)
  ∧ callbacks demoStart = [StopIframeMonitor; RemoveListenerAndReject].
Proof.
  apply (establishment_is_passive demoResolver demoOptions demoStart).
  reflexivity.
Defined.

Lemma established_survives_timeout_witness :
  step TimeoutElapsed demoEstablished = Return demoEstablished.
Proof.
  apply (established_survives_timeout demoResolver demoOptions demoStart
           [MessageArrived demoSyn; MessageArrived demoAck] demoEstablished
           (buildCallSender "https://child.example" ["multiply"]));
    reflexivity.
Defined.

Lemma rejection_comes_from_destruction_witness :
  destroyed demoTimedOut = true
  ∧ listening demoTimedOut = false
  ∧ Some timeoutError ∈ causes_in (trace demoTimedOut).
Proof.
  apply (rejection_comes_from_destruction demoResolver demoOptions demoStart
           [TimeoutElapsed] demoTimedOut timeoutError); reflexivity.
Defined.

Lemma destroyed_attempt_is_inert_witness :
  promise demoTimedOut = promise demoTimedOut
  ∧ trace demoTimedOut = trace demoTimedOut
  ∧ destroyed demoTimedOut = true
  ∧ listening demoTimedOut = false.
Proof.
  apply (destroyed_attempt_is_inert demoResolver demoOptions demoStart
           [TimeoutElapsed] demoTimedOut
           [MessageArrived demoAck; DestroyCalled JSNull; IframeRemoved]
           demoTimedOut); reflexivity.
Defined.

Lemma syn_answered_while_live_witness :
  step (MessageArrived demoSyn) demoEstablished =
  Return (emit (Posted (Ack (dom (methods demoOptions)))
                       (originForSending (closure demoStart)))
               demoEstablished).
Proof.
  apply (syn_answered_while_live demoResolver demoOptions demoStart
           [MessageArrived demoSyn; MessageArrived demoAck] demoEstablished
           demoSyn (mkData (Some MessageType_Syn) [])); reflexivity.
Defined.


Lemma destroy_leaves_timer_witness :
  ∃ s s' s'',
    run [MessageArrived demoSyn] demoStart = Return s
    ∧ step (DestroyCalled JSNull) s = Return s'
    ∧ timer s' = TimerScheduled 2000
    ∧ step TimeoutElapsed s' = Return s''
    ∧ timer s'' = TimerFired
    ∧ promise s'' = Pending
    ∧ trace s'' = trace s'.
Proof.
  apply (destroy_leaves_timer demoResolver demoOptions 2000 demoStart
           [MessageArrived demoSyn] JSNull); reflexivity.
Defined.

Lemma messages_without_ack_witness :
  ∃ s, run [MessageArrived demoSyn; MessageArrived foreignAck;
            MessageArrived callMessage] demoStart = Return s
    ∧ promise s = Pending
    ∧ destroyed s = false
    ∧ listening s = true
    ∧ timer s = scheduledTimer (timeout demoOptions)
    ∧ settlements_in (trace s) = 0.
Proof.
  apply (messages_without_ack_keep_waiting demoResolver demoOptions
           demoStart [MessageArrived demoSyn; MessageArrived foreignAck;
                      MessageArrived callMessage]); reflexivity.
Defined.

Lemma ack_without_then_witness :
  ∃ s s' callSender,
    run [MessageArrived demoSyn; MessageArrived foreignAck] demoStart
    = Return s
    ∧ step (MessageArrived demoAck) s = Return s'
    ∧ promise s' = Fulfilled callSender
    ∧ dom callSender = list_to_set ["multiply"]
    ∧ ∀ later s'', run later s' = Return s'' →
        promise s'' = Fulfilled callSender.
Proof.
  apply (ack_without_then_fulfills demoResolver demoOptions
           demoStart [MessageArrived demoSyn; MessageArrived foreignAck]
           demoAck (mkData (Some MessageType_Ack) ["multiply"])).
  - reflexivity.
  - reflexivity.
  - reflexivity.
  - reflexivity.
  - reflexivity.
  - simpl. intros [H|H]%elem_of_cons; [discriminate H|].
    by apply elem_of_nil in H.
Defined.
